(** * Platform layout probe of the darwin process collector

    Embedding of [prometheus/testutil/purego/process_collector_cgo_darwin.c].
    The file is a list of zero-argument C functions, each returning as
    [size_t] either a macro of the kernel headers or a [sizeof]/[offsetof]
    of one of two kernel structures.  What the functions compute is decided
    by two things that are not in the file itself: the C record layout of
    the target (LP64, with [#pragma pack]) and the declarations of the
    included headers.  The first is modelled in [CLayout]; the second is a
    parameter ([headers]) of every accessor. *)

From Stdlib Require Import ZArith List String Bool Lia.
Import ListNotations.
Local Open Scope string_scope.
Local Open Scope Z_scope.

(** ** C types and record layout on the darwin targets *)

Module CLayout.

(** The values [#pragma pack(push, n)] accepts. *)
Inductive packing : Type := Pack1 | Pack2 | Pack4 | Pack8 | Pack16.

Definition packing_bytes (p : packing) : Z :=
  match p with
  | Pack1 => 1
  | Pack2 => 2
  | Pack4 => 4
  | Pack8 => 8
  | Pack16 => 16
  end.

(** Object types as far as layout is concerned (signedness plays no role
    in [sizeof] and [offsetof]; bit-fields and unions do not occur).  A
    structure carries the packing in force at its declaration, if any, and
    its members in declaration order. *)
#[local] Unset Elimination Schemes.
Inductive ctype : Type :=
| Tchar
| Tshort
| Tint
| Tlong
| Tlonglong
| Tpointer
| Tarray (elem : ctype) (len : N)
| Tstruct (pack : option packing) (members : list (string * ctype)).
#[local] Set Elimination Schemes.

(** A member as the layout sees it: name, size, alignment requirement. *)
Definition slot : Type := string * Z * Z.

Definition slot_name (s : slot) : string := fst (fst s).
Definition slot_size (s : slot) : Z := snd (fst s).
Definition slot_align (s : slot) : Z := snd s.

(** Round [off] up to the next multiple of [a]. *)
Definition align_up (off a : Z) : Z := (off + a - 1) / a * a.

(** Alignment of a member under the packing in force. *)
Definition cap (pack : option packing) (a : Z) : Z :=
  match pack with
  | Some p => Z.min a (packing_bytes p)
  | None => a
  end.

(** Alignment of a structure: the strictest of its members, at least 1. *)
Fixpoint slots_align (ss : list slot) : Z :=
  match ss with
  | [] => 1
  | s :: r => Z.max (slot_align s) (slots_align r)
  end.

(** Offset one past the last member, laying members out from [off]. *)
Fixpoint slots_end (ss : list slot) (off : Z) : Z :=
  match ss with
  | [] => off
  | s :: r => slots_end r (align_up off (slot_align s) + slot_size s)
  end.

(** Offset and size of the first member called [f], laying out from [off]. *)
Fixpoint slots_find (f : string) (ss : list slot) (off : Z) : option (Z * Z) :=
  match ss with
  | [] => None
  | s :: r =>
      let o := align_up off (slot_align s) in
      if String.eqb f (slot_name s) then Some (o, slot_size s)
      else slots_find f r (o + slot_size s)
  end.

(** [sizeof] and [_Alignof] of the LP64 data model used by darwin/amd64 and
    darwin/arm64. *)
Fixpoint sizeof (t : ctype) : Z :=
  match t with
  | Tchar => 1
  | Tshort => 2
  | Tint => 4
  | Tlong => 8
  | Tlonglong => 8
  | Tpointer => 8
  | Tarray e n => sizeof e * Z.of_N n
  | Tstruct pk ms =>
      let ss := map (fun m => (fst m, sizeof (snd m), cap pk (alignof (snd m)))) ms in
      align_up (slots_end ss 0) (slots_align ss)
  end
with alignof (t : ctype) : Z :=
  match t with
  | Tchar => 1
  | Tshort => 2
  | Tint => 4
  | Tlong => 8
  | Tlonglong => 8
  | Tpointer => 8
  | Tarray e _ => alignof e
  | Tstruct pk ms =>
      slots_align (map (fun m => (fst m, sizeof (snd m), cap pk (alignof (snd m)))) ms)
  end.

(** The members of a structure as the layout sees them. *)
Definition slots (pk : option packing) (ms : list (string * ctype)) : list slot :=
  map (fun m => (fst m, sizeof (snd m), cap pk (alignof (snd m)))) ms.

(** Declared type of the first member called [f]. *)
Fixpoint member_type (f : string) (ms : list (string * ctype)) : option ctype :=
  match ms with
  | [] => None
  | m :: r => if String.eqb f (fst m) then Some (snd m) else member_type f r
  end.

(** The alignments of the data model. *)
Definition pow2_upto8 (a : Z) : Prop := a = 1 \/ a = 2 \/ a = 4 \/ a = 8.

(** Slots with non-negative sizes and positive alignments. *)
Definition slots_ok (ss : list slot) : Prop :=
  Forall (fun s => 0 <= slot_size s /\ 0 < slot_align s) ss.

(** Structural induction that reaches the member types of a structure. *)
Fixpoint ctype_members_ind (P : ctype -> Prop)
    (Hchar : P Tchar) (Hshort : P Tshort) (Hint : P Tint) (Hlong : P Tlong)
    (Hlonglong : P Tlonglong) (Hpointer : P Tpointer)
    (Harray : forall e n, P e -> P (Tarray e n))
    (Hstruct : forall pk ms, Forall (fun m => P (snd m)) ms -> P (Tstruct pk ms))
    (t : ctype) {struct t} : P t :=
  match t with
  | Tchar => Hchar
  | Tshort => Hshort
  | Tint => Hint
  | Tlong => Hlong
  | Tlonglong => Hlonglong
  | Tpointer => Hpointer
  | Tarray e n =>
      Harray e n
        (ctype_members_ind P Hchar Hshort Hint Hlong Hlonglong Hpointer Harray Hstruct e)
  | Tstruct pk ms =>
      Hstruct pk ms
        ((fix go (l : list (string * ctype)) : Forall (fun m => P (snd m)) l :=
            match l with
            | [] => Forall_nil _
            | m :: r =>
                Forall_cons m
                  (ctype_members_ind P Hchar Hshort Hint Hlong Hlonglong Hpointer
                     Harray Hstruct (snd m))
                  (go r)
            end) ms)
  end.

End CLayout.

(** ** The included headers and the C operators the file applies to them *)

Module Probe.
Import CLayout.

(** [size_t] of both darwin targets of the [cgo && darwin] build. *)
Definition size_t_bits : Z := 64.
Definition SIZE_MAX : Z := 2 ^ size_t_bits - 1.

(** Conversion of an integer value to [size_t], as [return] performs it
    in a function declared to return [size_t]. *)
Definition to_size_t (z : Z) : Z := z mod 2 ^ size_t_bits.

(** A [struct] declaration of a header. *)
Record struct_decl : Type := {
  sd_pack : option packing;
  sd_members : list (string * ctype)
}.

Definition struct_type (d : struct_decl) : ctype :=
  Tstruct (sd_pack d) (sd_members d).

(** What the file takes from [<mach/shared_memory_server.h>] (the three
    macros, by the value of their integer constant), [<mach/task_info.h>]
    and [<mach/vm_region.h>] (the two structures). *)
Record headers : Type := {
  GLOBAL_SHARED_TEXT_SEGMENT : Z;
  SHARED_TEXT_REGION_SIZE : Z;
  SHARED_DATA_REGION_SIZE : Z;
  mach_task_basic_info : struct_decl;
  vm_region_basic_info_64 : struct_decl
}.

(** An object type is usable when its size is a [size_t] value; a larger
    one is rejected at compile time. *)
Definition usable (t : ctype) : bool := sizeof t <=? SIZE_MAX.

(** Contents of memory that a call finds where its frame goes: the
    indeterminate value of locals that are declared and never assigned. *)
Definition stack : Type := list Z.

(** An lvalue: its type and the bytes it designates. *)
Record object : Type := {
  obj_type : ctype;
  obj_bytes : list Z
}.

(** Compile-time lookups fail with [None]. *)
Definition bind {A B : Type} (x : option A) (k : A -> option B) : option B :=
  match x with
  | Some a => k a
  | None => None
  end.

Notation "x <- e ;; k" := (bind e (fun x => k))
  (at level 61, e at next level, right associativity).

(** [T x;] with no initialiser: [x] designates whatever the frame holds. *)
Definition local_object (t : ctype) (stk : stack) : option object :=
  if usable t
  then Some {| obj_type := t; obj_bytes := firstn (Z.to_nat (sizeof t)) stk |}
  else None.

(** [x.f] *)
Definition member (x : object) (f : string) : option object :=
  match obj_type x with
  | Tstruct pk ms =>
      t <- member_type f ms ;;
      p <- slots_find f (slots pk ms) 0 ;;
      Some {| obj_type := t;
              obj_bytes := firstn (Z.to_nat (snd p))
                             (skipn (Z.to_nat (fst p)) (obj_bytes x)) |}
  | _ => None
  end.

(** [sizeof(T)] *)
Definition sizeof_type (t : ctype) : option Z :=
  if usable t then Some (sizeof t) else None.

(** [sizeof(e)]: the operand is not evaluated, only its type is used. *)
Definition sizeof_expr (x : object) : option Z :=
  sizeof_type (obj_type x).

(** [offsetof(T, f)] *)
Definition offsetof (t : ctype) (f : string) : option Z :=
  match t with
  | Tstruct pk ms =>
      if usable t then option_map fst (slots_find f (slots pk ms) 0) else None
  | _ => None
  end.

Section Accessors.

Variable h : headers.

Definition getGlobalSharedTextSegment : option Z :=
  Some (to_size_t (GLOBAL_SHARED_TEXT_SEGMENT h)).

Definition getSharedTextRegionSize : option Z :=
  Some (to_size_t (SHARED_TEXT_REGION_SIZE h)).

Definition getSharedDataRegionSize : option Z :=
  Some (to_size_t (SHARED_DATA_REGION_SIZE h)).

Definition getSizeofMachTaskBasicInfo : option Z :=
  sizeof_type (struct_type (mach_task_basic_info h)).

Definition getOffsetOfMachTaskBasicInfo_virtual_size : option Z :=
  offsetof (struct_type (mach_task_basic_info h)) "virtual_size".

Definition getSizeofMachTaskBasicInfo_virtual_size (stk : stack) : option Z :=
  info <- local_object (struct_type (mach_task_basic_info h)) stk ;;
  fld <- member info "virtual_size" ;;
  sizeof_expr fld.

Definition getOffsetOfMachTaskBasicInfo_resident_size : option Z :=
  offsetof (struct_type (mach_task_basic_info h)) "resident_size".

Definition getSizeofMachTaskBasicInfo_resident_size (stk : stack) : option Z :=
  info <- local_object (struct_type (mach_task_basic_info h)) stk ;;
  fld <- member info "resident_size" ;;
  sizeof_expr fld.

Definition getSizeofVmRegionBasicInfo64 : option Z :=
  sizeof_type (struct_type (vm_region_basic_info_64 h)).

Definition getOffsetOfVmRegionBasicInfo64_reserved : option Z :=
  offsetof (struct_type (vm_region_basic_info_64 h)) "reserved".

Definition getSizeofVmRegionBasicInfo64_reserved (stk : stack) : option Z :=
  data <- local_object (struct_type (vm_region_basic_info_64 h)) stk ;;
  fld <- member data "reserved" ;;
  sizeof_expr fld.

(** The eleven entry points of the file. *)
Inductive accessor : Type :=
| GlobalSharedTextSegment
| SharedTextRegionSize
| SharedDataRegionSize
| SizeofMachTaskBasicInfo
| OffsetOfMachTaskBasicInfo_virtual_size
| SizeofMachTaskBasicInfo_virtual_size
| OffsetOfMachTaskBasicInfo_resident_size
| SizeofMachTaskBasicInfo_resident_size
| SizeofVmRegionBasicInfo64
| OffsetOfVmRegionBasicInfo64_reserved
| SizeofVmRegionBasicInfo64_reserved.

(** One call, made when the stack holds [stk]. *)
Definition call (a : accessor) (stk : stack) : option Z :=
  match a with
  | GlobalSharedTextSegment => getGlobalSharedTextSegment
  | SharedTextRegionSize => getSharedTextRegionSize
  | SharedDataRegionSize => getSharedDataRegionSize
  | SizeofMachTaskBasicInfo => getSizeofMachTaskBasicInfo
  | OffsetOfMachTaskBasicInfo_virtual_size => getOffsetOfMachTaskBasicInfo_virtual_size
  | SizeofMachTaskBasicInfo_virtual_size => getSizeofMachTaskBasicInfo_virtual_size stk
  | OffsetOfMachTaskBasicInfo_resident_size => getOffsetOfMachTaskBasicInfo_resident_size
  | SizeofMachTaskBasicInfo_resident_size => getSizeofMachTaskBasicInfo_resident_size stk
  | SizeofVmRegionBasicInfo64 => getSizeofVmRegionBasicInfo64
  | OffsetOfVmRegionBasicInfo64_reserved => getOffsetOfVmRegionBasicInfo64_reserved
  | SizeofVmRegionBasicInfo64_reserved => getSizeofVmRegionBasicInfo64_reserved stk
  end.

(** What a process does between and around calls: it calls an accessor,
    or it runs other code that leaves the stack in another state. *)
Inductive event : Type :=
| Call (a : accessor)
| Other (f : stack -> stack).

(** The results of the calls of a run, in order, each with its accessor. *)
Fixpoint exec (es : list event) (stk : stack) : list (accessor * option Z) :=
  match es with
  | [] => []
  | Call a :: r => (a, call a stk) :: exec r stk
  | Other f :: r => exec r (f stk)
  end.

(** The translation unit is accepted: both structures are usable object
    types and have the members the file names. *)
Definition has_member (d : struct_decl) (f : string) : bool :=
  match member_type f (sd_members d) with
  | Some _ => true
  | None => false
  end.

Definition compiles : bool :=
  usable (struct_type (mach_task_basic_info h))
  && has_member (mach_task_basic_info h) "virtual_size"
  && has_member (mach_task_basic_info h) "resident_size"
  && usable (struct_type (vm_region_basic_info_64 h))
  && has_member (vm_region_basic_info_64 h) "reserved".

End Accessors.

End Probe.

(** ** The kernel headers of the two darwin targets *)

Module Xnu.
Import CLayout Probe.

(** [<mach/shared_memory_server.h>] defines its macros twice, under a
    conditional on the target architecture: once for ARM targets and once
    for all others. *)
Inductive region_variant : Type := arm_regions | default_regions.

(** Typedefs of [<mach/machine/vm_types.h>], [<mach/vm_prot.h>],
    [<mach/vm_inherit.h>], [<mach/vm_behavior.h>], [<mach/policy.h>],
    [<mach/memory_object_types.h>] and [<mach/machine/boolean.h>]. *)
Definition integer_t : ctype := Tint.
Definition mach_vm_size_t : ctype := Tlonglong.
Definition policy_t : ctype := Tint.
Definition vm_prot_t : ctype := Tint.
Definition vm_inherit_t : ctype := Tint.
Definition vm_behavior_t : ctype := Tint.
Definition boolean_t : ctype := Tint.
Definition memory_object_offset_t : ctype := Tlonglong.

(** [struct time_value] of [<mach/time_value.h>]. *)
Definition time_value_t : ctype :=
  Tstruct None [("seconds", integer_t); ("microseconds", integer_t)].

(** Modelled from the spec: the declarations of [<mach/task_info.h>],
    [<mach/vm_region.h>] and [<mach/shared_memory_server.h>], which the
    file includes and the repository does not contain.  The spec fixes
    their role only (a task-info structure whose [virtual_size] and
    [resident_size] are at least 8 bytes wide, a region-info structure with
    a [reserved] member, positive region sizes); the members and values
    below are those of the XNU headers, both structures being declared
    under [#pragma pack(push, 4)]. *)
Definition xnu_mach_task_basic_info : struct_decl :=
  {| sd_pack := Some Pack4;
     sd_members :=
       [("virtual_size", mach_vm_size_t);
        ("resident_size", mach_vm_size_t);
        ("resident_size_max", mach_vm_size_t);
        ("user_time", time_value_t);
        ("system_time", time_value_t);
        ("policy", policy_t);
        ("suspend_count", integer_t)] |}.

Definition xnu_vm_region_basic_info_64 : struct_decl :=
  {| sd_pack := Some Pack4;
     sd_members :=
       [("protection", vm_prot_t);
        ("max_protection", vm_prot_t);
        ("inheritance", vm_inherit_t);
        ("shared", boolean_t);
        ("reserved", boolean_t);
        ("offset", memory_object_offset_t);
        ("behavior", vm_behavior_t);
        ("user_wired_count", Tshort)] |}.

Definition xnu_headers (a : region_variant) : headers :=
  {| GLOBAL_SHARED_TEXT_SEGMENT :=
       match a with default_regions => 0x90000000 | arm_regions => 0x30000000 end;
     SHARED_TEXT_REGION_SIZE :=
       match a with default_regions => 0x10000000 | arm_regions => 0x08000000 end;
     SHARED_DATA_REGION_SIZE :=
       match a with default_regions => 0x10000000 | arm_regions => 0x08000000 end;
     mach_task_basic_info := xnu_mach_task_basic_info;
     vm_region_basic_info_64 := xnu_vm_region_basic_info_64 |}.

End Xnu.

(** ** What "size" and "offset" of a structure mean

    A declarative reading of the layout facts, independent of the
    arithmetic of [CLayout]: members are placed in declaration order, each
    at the lowest offset after its predecessor that its alignment allows,
    and the structure ends at the lowest multiple of its own alignment
    that covers the last member. *)

Module LayoutSpec.
Import CLayout Probe.

(** [o] is the lowest multiple of [a] that is not below [lo]. *)
Definition first_fit (a lo o : Z) : Prop :=
  (a | o) /\ lo <= o /\ forall o', (a | o') -> lo <= o' -> o <= o'.

(** [placed pk ms lo f o t]: with the members [ms] laid out from [lo],
    the first member called [f] has type [t] and starts at [o]. *)
Inductive placed (pk : option packing) :
  list (string * ctype) -> Z -> string -> Z -> ctype -> Prop :=
| placed_here : forall f t ms lo o,
    first_fit (cap pk (alignof t)) lo o ->
    placed pk ((f, t) :: ms) lo f o t
| placed_later : forall g u ms lo o' f o t,
    f <> g ->
    first_fit (cap pk (alignof u)) lo o' ->
    placed pk ms (o' + sizeof u) f o t ->
    placed pk ((g, u) :: ms) lo f o t.

(** [members_end pk ms lo e]: the last of [ms], laid out from [lo], ends
    at [e]. *)
Inductive members_end (pk : option packing) :
  list (string * ctype) -> Z -> Z -> Prop :=
| end_nil : forall lo, members_end pk [] lo lo
| end_cons : forall f t ms lo o e,
    first_fit (cap pk (alignof t)) lo o ->
    members_end pk ms (o + sizeof t) e ->
    members_end pk ((f, t) :: ms) lo e.

(** [a] is the strictest alignment among the members (1 if none is
    stricter). *)
Definition strictest (pk : option packing) (ms : list (string * ctype)) (a : Z) : Prop :=
  1 <= a
  /\ (a = 1 \/ exists m, In m ms /\ a = cap pk (alignof (snd m)))
  /\ forall m, In m ms -> cap pk (alignof (snd m)) <= a.

(** The three kinds of structural fact. *)
Definition struct_size (d : struct_decl) (n : Z) : Prop :=
  exists e a,
    members_end (sd_pack d) (sd_members d) 0 e
    /\ strictest (sd_pack d) (sd_members d) a
    /\ first_fit a e n.

Definition field_offset (d : struct_decl) (f : string) (o : Z) : Prop :=
  exists t, placed (sd_pack d) (sd_members d) 0 f o t.

Definition field_size (d : struct_decl) (f : string) (s : Z) : Prop :=
  exists o t, placed (sd_pack d) (sd_members d) 0 f o t /\ s = sizeof t.

(** A call reports a fact when it returns the one value the fact holds of. *)
Definition reports (r : option Z) (fact : Z -> Prop) : Prop :=
  exists v, r = Some v /\ forall n, fact n <-> n = v.

End LayoutSpec.

Import CLayout Probe Xnu LayoutSpec.

(** ** Sanity checks on the two darwin targets *)

Example xnu_default_values :
  map (fun a => call (xnu_headers default_regions) a [])
    [GlobalSharedTextSegment; SharedTextRegionSize; SharedDataRegionSize;
     SizeofMachTaskBasicInfo; OffsetOfMachTaskBasicInfo_virtual_size;
     SizeofMachTaskBasicInfo_virtual_size; OffsetOfMachTaskBasicInfo_resident_size;
     SizeofMachTaskBasicInfo_resident_size; SizeofVmRegionBasicInfo64;
     OffsetOfVmRegionBasicInfo64_reserved; SizeofVmRegionBasicInfo64_reserved]
  = map Some [0x90000000; 0x10000000; 0x10000000; 48; 0; 8; 8; 8; 36; 16; 4].
Proof. reflexivity. Qed.

Example xnu_arm_values :
  map (fun a => call (xnu_headers arm_regions) a [])
    [GlobalSharedTextSegment; SharedTextRegionSize; SharedDataRegionSize;
     SizeofMachTaskBasicInfo; OffsetOfMachTaskBasicInfo_virtual_size;
     SizeofMachTaskBasicInfo_virtual_size; OffsetOfMachTaskBasicInfo_resident_size;
     SizeofMachTaskBasicInfo_resident_size; SizeofVmRegionBasicInfo64;
     OffsetOfVmRegionBasicInfo64_reserved; SizeofVmRegionBasicInfo64_reserved]
  = map Some [0x30000000; 0x08000000; 0x08000000; 48; 0; 8; 8; 8; 36; 16; 4].
Proof. reflexivity. Qed.

Example xnu_compiles : forall a, compiles (xnu_headers a) = true.
Proof. intros []; reflexivity. Qed.

(** ** Rounding up to an alignment *)

Lemma align_up_ge (off a : Z) : 0 < a -> off <= align_up off a.
Proof.
  intros Ha. unfold align_up.
  pose proof (Z.div_mod (off + a - 1) a) as E.
  pose proof (Z.mod_pos_bound (off + a - 1) a Ha) as B.
  specialize (E ltac:(lia)). nia.
Qed.

Lemma align_up_lt (off a : Z) : 0 < a -> align_up off a < off + a.
Proof.
  intros Ha. unfold align_up.
  pose proof (Z.div_mod (off + a - 1) a) as E.
  pose proof (Z.mod_pos_bound (off + a - 1) a Ha) as B.
  specialize (E ltac:(lia)). nia.
Qed.

Lemma align_up_divide (off a : Z) : (a | align_up off a).
Proof. exists ((off + a - 1) / a). reflexivity. Qed.

Lemma align_up_aligned (off a : Z) : 0 < a -> (a | off) -> align_up off a = off.
Proof.
  intros Ha [k ->]. unfold align_up.
  replace (k * a + a - 1) with ((a - 1) + k * a) by lia.
  rewrite Z.div_add by lia. rewrite Z.div_small by lia. lia.
Qed.

Lemma align_up_first_fit (off a : Z) : 0 < a -> first_fit a off (align_up off a).
Proof.
  intros Ha. split; [apply align_up_divide|]. split; [now apply align_up_ge|].
  intros o' [k ->] Hlo.
  pose proof (align_up_lt off a Ha) as Hlt.
  destruct (align_up_divide off a) as [j Hj]. rewrite Hj in *.
  assert (j < k + 1) by (apply (Z.mul_lt_mono_pos_r a); lia).
  apply Z.mul_le_mono_nonneg_r; lia.
Qed.

Lemma first_fit_unique (a lo o1 o2 : Z) :
  first_fit a lo o1 -> first_fit a lo o2 -> o1 = o2.
Proof.
  intros (D1 & L1 & M1) (D2 & L2 & M2).
  pose proof (M1 o2 D2 L2). pose proof (M2 o1 D1 L1). lia.
Qed.

Lemma first_fit_align_up (a lo o : Z) :
  0 < a -> first_fit a lo o -> o = align_up lo a.
Proof.
  intros Ha H. eapply first_fit_unique; [exact H|]. now apply align_up_first_fit.
Qed.

(** ** Sizes and alignments of the data model *)

Lemma cap_pow2 (pk : option packing) (a : Z) : pow2_upto8 a -> pow2_upto8 (cap pk a).
Proof.
  unfold pow2_upto8, cap. intros H.
  destruct pk as [[]|]; cbn [packing_bytes]; lia.
Qed.

Lemma slots_align_pow2 (pk : option packing) (ms : list (string * ctype)) :
  Forall (fun m => pow2_upto8 (alignof (snd m))) ms ->
  pow2_upto8 (slots_align (slots pk ms)).
Proof.
  induction 1 as [|m r Hm _ IH]; cbn.
  - left; reflexivity.
  - apply (cap_pow2 pk) in Hm. unfold slot_align; cbn.
    unfold pow2_upto8 in *. fold (slots pk r). lia.
Qed.

Lemma alignof_pow2 (t : ctype) : pow2_upto8 (alignof t).
Proof.
  induction t as [| | | | | |e n IH|pk ms IH] using ctype_members_ind; cbn [alignof];
    try (unfold pow2_upto8; lia).
  - exact IH.
  - apply (slots_align_pow2 pk ms IH).
Qed.


Lemma cap_alignof_pos (pk : option packing) (t : ctype) : 0 < cap pk (alignof t).
Proof.
  pose proof (cap_pow2 pk _ (alignof_pow2 t)) as H. unfold pow2_upto8 in H. lia.
Qed.

Lemma slots_end_ge (ss : list slot) :
  slots_ok ss -> forall off, off <= slots_end ss off.
Proof.
  induction 1 as [|s r [Hs Ha] _ IH]; intros off; cbn.
  - lia.
  - specialize (IH (align_up off (slot_align s) + slot_size s)).
    pose proof (align_up_ge off _ Ha). lia.
Qed.

Lemma slots_align_pos (ss : list slot) : 0 < slots_align ss.
Proof. induction ss; cbn; lia. Qed.

Lemma sizeof_nonneg (t : ctype) : 0 <= sizeof t.
Proof.
  induction t as [| | | | | |e n IH|pk ms IH] using ctype_members_ind; cbn [sizeof]; try lia.
  fold (slots pk ms).
  assert (Hok : slots_ok (slots pk ms)).
  { unfold slots_ok, slots. apply Forall_map.
    eapply Forall_impl; [|exact IH]. intros m Hm; cbn.
    split; [exact Hm | apply cap_alignof_pos]. }
  pose proof (slots_end_ge _ Hok 0).
  pose proof (align_up_ge (slots_end (slots pk ms) 0) _ (slots_align_pos (slots pk ms))).
  lia.
Qed.

Lemma slots_wf (pk : option packing) (ms : list (string * ctype)) :
  slots_ok (slots pk ms).
Proof.
  unfold slots_ok, slots. apply Forall_map. apply Forall_forall.
  intros m _; cbn. split; [apply sizeof_nonneg | apply cap_alignof_pos].
Qed.

Lemma sizeof_struct_eq (pk : option packing) (ms : list (string * ctype)) :
  sizeof (Tstruct pk ms)
  = align_up (slots_end (slots pk ms) 0) (slots_align (slots pk ms)).
Proof. reflexivity. Qed.

Lemma sizeof_struct_covers (pk : option packing) (ms : list (string * ctype)) :
  slots_end (slots pk ms) 0 <= sizeof (Tstruct pk ms).
Proof.
  rewrite sizeof_struct_eq. apply align_up_ge, slots_align_pos.
Qed.

(** ** Where the layout puts a member *)

Lemma slots_find_bounds (f : string) (ss : list slot) :
  slots_ok ss ->
  forall off o s,
    slots_find f ss off = Some (o, s) ->
    off <= o /\ 0 <= s /\ o + s <= slots_end ss off.
Proof.
  induction 1 as [|x r [Hs Ha] Hr IH]; intros off o s; cbn.
  - discriminate.
  - pose proof (align_up_ge off _ Ha) as Hge.
    destruct (String.eqb f (slot_name x)).
    + intros [= <- <-].
      pose proof (slots_end_ge r Hr (align_up off (slot_align x) + slot_size x)).
      lia.
    + intros Hf. apply IH in Hf. lia.
Qed.

(** Two members of different names occupy ranges that lie one after the
    other. *)
Lemma slots_find_apart (f g : string) (ss : list slot) :
  slots_ok ss -> f <> g ->
  forall off o1 s1 o2 s2,
    slots_find f ss off = Some (o1, s1) ->
    slots_find g ss off = Some (o2, s2) ->
    o1 + s1 <= o2 \/ o2 + s2 <= o1.
Proof.
  intros Hok Hfg. induction Hok as [|x r [Hs Ha] Hr IH]; intros off o1 s1 o2 s2; cbn.
  - discriminate.
  - destruct (String.eqb_spec f (slot_name x)) as [Ef|Nf];
      destruct (String.eqb_spec g (slot_name x)) as [Eg|Ng].
    + congruence.
    + intros [= <- <-] Hg.
      apply (slots_find_bounds g r Hr) in Hg. lia.
    + intros Hf [= <- <-].
      apply (slots_find_bounds f r Hr) in Hf. lia.
    + apply IH.
Qed.

Lemma slots_find_member_type (pk : option packing) (f : string)
    (ms : list (string * ctype)) (off : Z) :
  option_map snd (slots_find f (slots pk ms) off)
  = option_map sizeof (member_type f ms).
Proof.
  revert off. induction ms as [|m r IH]; intros off; cbn.
  - reflexivity.
  - unfold slot_name; cbn. destruct (String.eqb f (fst m)); cbn.
    + reflexivity.
    + apply IH.
Qed.

Lemma member_type_fits (pk : option packing) (f : string)
    (ms : list (string * ctype)) (t : ctype) :
  member_type f ms = Some t -> sizeof t <= sizeof (Tstruct pk ms).
Proof.
  intros Hm.
  pose proof (slots_find_member_type pk f ms 0) as E. rewrite Hm in E. cbn in E.
  destruct (slots_find f (slots pk ms) 0) as [[o s]|] eqn:Hf; [|discriminate].
  cbn in E. injection E as ->.
  apply (slots_find_bounds f _ (slots_wf pk ms)) in Hf.
  pose proof (sizeof_struct_covers pk ms). lia.
Qed.

(** The three functions that measure a member of an uninitialised local
    all have this body. *)
Lemma sizeof_local_member (d : struct_decl) (f : string) (stk : stack) :
  (info <- local_object (struct_type d) stk ;;
   fld <- member info f ;;
   sizeof_expr fld)
  = if usable (struct_type d)
    then option_map sizeof (member_type f (sd_members d))
    else None.
Proof.
  unfold local_object. destruct (usable (struct_type d)) eqn:Hc; [|reflexivity].
  cbn. destruct (member_type f (sd_members d)) as [t|] eqn:Hm; [|reflexivity].
  pose proof (slots_find_member_type (sd_pack d) f (sd_members d) 0) as E.
  rewrite Hm in E.
  destruct (slots_find f (slots (sd_pack d) (sd_members d)) 0) as [p|]; [|discriminate].
  cbn. unfold sizeof_expr, sizeof_type; cbn.
  apply (member_type_fits (sd_pack d)) in Hm.
  unfold usable, struct_type in *. apply Z.leb_le in Hc.
  destruct (Z.leb_spec (sizeof t) SIZE_MAX); [reflexivity | lia].
Qed.

Lemma offsetof_struct (d : struct_decl) (f : string) :
  offsetof (struct_type d) f
  = if usable (struct_type d)
    then option_map fst (slots_find f (slots (sd_pack d) (sd_members d)) 0)
    else None.
Proof. reflexivity. Qed.

(** ** The layout arithmetic against its declarative reading *)

Lemma placed_slots_find (pk : option packing) (ms : list (string * ctype))
    (lo : Z) (f : string) (o : Z) (t : ctype) :
  placed pk ms lo f o t ->
  slots_find f (slots pk ms) lo = Some (o, sizeof t) /\ member_type f ms = Some t.
Proof.
  induction 1 as [f t ms lo o Hfit | g u ms lo o' f o t Hne Hfit _ [IH1 IH2]];
    cbn; unfold slot_name, slot_size, slot_align; cbn.
  - rewrite String.eqb_refl.
    apply first_fit_align_up in Hfit; [|apply cap_alignof_pos].
    subst o. split; reflexivity.
  - apply String.eqb_neq in Hne. rewrite Hne.
    apply first_fit_align_up in Hfit; [|apply cap_alignof_pos].
    subst o'. split; assumption.
Qed.

Lemma slots_find_placed (pk : option packing) (ms : list (string * ctype))
    (f : string) :
  forall lo o s,
    slots_find f (slots pk ms) lo = Some (o, s) ->
    exists t, placed pk ms lo f o t /\ s = sizeof t.
Proof.
  induction ms as [|[g u] r IH]; intros lo o s; cbn.
  - discriminate.
  - unfold slot_name, slot_size, slot_align; cbn.
    destruct (String.eqb_spec f g) as [->|Hne].
    + intros [= <- <-]. exists u. split; [|reflexivity].
      apply placed_here. apply align_up_first_fit, cap_alignof_pos.
    + intros Hf. apply IH in Hf. destruct Hf as (t & Hp & ->).
      exists t. split; [|reflexivity].
      eapply placed_later; [exact Hne | | exact Hp].
      apply align_up_first_fit, cap_alignof_pos.
Qed.

Lemma members_end_slots_end (pk : option packing) (ms : list (string * ctype))
    (lo e : Z) :
  members_end pk ms lo e <-> e = slots_end (slots pk ms) lo.
Proof.
  split.
  - induction 1 as [lo | f t ms lo o e Hfit _ IH]; cbn.
    + reflexivity.
    + unfold slot_size, slot_align; cbn.
      apply first_fit_align_up in Hfit; [|apply cap_alignof_pos].
      now subst o.
  - intros ->. revert lo. induction ms as [|[f t] r IH]; intros lo; cbn.
    + constructor.
    + unfold slot_size, slot_align; cbn.
      eapply end_cons; [|apply IH].
      apply align_up_first_fit, cap_alignof_pos.
Qed.

Lemma strictest_slots_align (pk : option packing) (ms : list (string * ctype))
    (a : Z) :
  strictest pk ms a <-> a = slots_align (slots pk ms).
Proof.
  unfold strictest. revert a.
  induction ms as [|m r IH]; intros a; cbn.
  - split.
    + intros (H1 & [->|(m & [] & _)] & _); reflexivity.
    + intros ->. split; [lia|]. split; [now left|]. intros m [].
  - unfold slot_align; cbn. fold (slots pk r).
    pose proof (cap_alignof_pos pk (snd m)) as Hm.
    destruct (proj2 (IH (slots_align (slots pk r))) eq_refl) as (R1 & R2 & R3).
    split.
    + intros (H1 & H2 & H3).
      pose proof (H3 m (or_introl eq_refl)) as Hle.
      assert (Hr : slots_align (slots pk r) <= a).
      { destruct R2 as [->|(x & Hx & ->)]; [lia|]. apply H3. now right. }
      destruct H2 as [->|(x & [<-|Hx] & ->)]; [lia|lia|].
      specialize (R3 x Hx). lia.
    + intros ->. split; [lia|]. split.
      * destruct (Z.max_spec (cap pk (alignof (snd m))) (slots_align (slots pk r)))
          as [[_ ->]|[_ ->]].
        -- destruct R2 as [->|(x & Hx & ->)]; [now left|].
           right. exists x. split; [now right | reflexivity].
        -- right. exists m. split; [now left | reflexivity].
      * intros x [<-|Hx]; [lia|]. specialize (R3 x Hx). lia.
Qed.

Lemma struct_size_sizeof (d : struct_decl) (n : Z) :
  struct_size d n <-> n = sizeof (struct_type d).
Proof.
  unfold struct_size, struct_type. rewrite sizeof_struct_eq. split.
  - intros (e & a & He & Ha & Hfit).
    apply members_end_slots_end in He. apply strictest_slots_align in Ha.
    subst e a. apply first_fit_align_up in Hfit; [assumption|].
    apply slots_align_pos.
  - intros ->. eexists; eexists. split; [apply members_end_slots_end; reflexivity|].
    split; [apply strictest_slots_align; reflexivity|].
    apply align_up_first_fit, slots_align_pos.
Qed.

Lemma field_offset_slots_find (d : struct_decl) (f : string) (o : Z) :
  field_offset d f o
  <-> option_map fst (slots_find f (slots (sd_pack d) (sd_members d)) 0) = Some o.
Proof.
  unfold field_offset. split.
  - intros (t & Hp). apply placed_slots_find in Hp. destruct Hp as [-> _]. reflexivity.
  - destruct (slots_find f (slots (sd_pack d) (sd_members d)) 0) as [[o' s]|] eqn:Hf;
      [|discriminate].
    intros [= <-]. apply slots_find_placed in Hf. destruct Hf as (t & Hp & _).
    now exists t.
Qed.

Lemma field_size_member_type (d : struct_decl) (f : string) (s : Z) :
  field_size d f s
  <-> option_map sizeof (member_type f (sd_members d)) = Some s.
Proof.
  unfold field_size. split.
  - intros (o & t & Hp & ->). apply placed_slots_find in Hp.
    destruct Hp as [_ ->]. reflexivity.
  - rewrite <- (slots_find_member_type (sd_pack d) f (sd_members d) 0).
    destruct (slots_find f (slots (sd_pack d) (sd_members d)) 0) as [[o s']|] eqn:Hf;
      [|discriminate].
    intros [= <-]. apply slots_find_placed in Hf. destruct Hf as (t & Hp & ->).
    exists o, t. split; [assumption | reflexivity].
Qed.

(** ** What an accepted translation unit provides *)

Lemma has_member_inv (d : struct_decl) (f : string) :
  has_member d f = true -> exists t, member_type f (sd_members d) = Some t.
Proof.
  unfold has_member. destruct (member_type f (sd_members d)) as [t|]; [|discriminate].
  intros _. now exists t.
Qed.

Lemma compiles_inv (h : headers) :
  compiles h = true ->
  usable (struct_type (mach_task_basic_info h)) = true
  /\ has_member (mach_task_basic_info h) "virtual_size" = true
  /\ has_member (mach_task_basic_info h) "resident_size" = true
  /\ usable (struct_type (vm_region_basic_info_64 h)) = true
  /\ has_member (vm_region_basic_info_64 h) "reserved" = true.
Proof.
  unfold compiles. rewrite !andb_true_iff. tauto.
Qed.

(** Measuring member [f] of a usable structure [d] that has it. *)
Lemma probe_member (d : struct_decl) (f : string) :
  usable (struct_type d) = true ->
  has_member d f = true ->
  exists o t,
    member_type f (sd_members d) = Some t
    /\ slots_find f (slots (sd_pack d) (sd_members d)) 0 = Some (o, sizeof t)
    /\ sizeof_type (struct_type d) = Some (sizeof (struct_type d))
    /\ offsetof (struct_type d) f = Some o
    /\ forall stk,
         (info <- local_object (struct_type d) stk ;;
          fld <- member info f ;;
          sizeof_expr fld) = Some (sizeof t).
Proof.
  intros Hc Hm. apply has_member_inv in Hm. destruct Hm as [t Hm].
  pose proof (slots_find_member_type (sd_pack d) f (sd_members d) 0) as E.
  rewrite Hm in E.
  destruct (slots_find f (slots (sd_pack d) (sd_members d)) 0) as [[o s]|] eqn:Hf;
    [|discriminate].
  cbn in E. injection E as ->.
  exists o, t. split; [assumption|]. split; [reflexivity|].
  split; [unfold sizeof_type; now rewrite Hc|].
  split; [rewrite offsetof_struct, Hc, Hf; reflexivity|].
  intros stk. rewrite sizeof_local_member, Hc, Hm. reflexivity.
Qed.

Lemma usable_bound (t : ctype) :
  usable t = true -> 0 <= sizeof t <= SIZE_MAX.
Proof.
  unfold usable. intros H. apply Z.leb_le in H.
  pose proof (sizeof_nonneg t). lia.
Qed.

Lemma to_size_t_range (z : Z) : 0 <= to_size_t z <= SIZE_MAX.
Proof.
  unfold to_size_t, SIZE_MAX.
  pose proof (Z.mod_pos_bound z (2 ^ size_t_bits) ltac:(reflexivity)). lia.
Qed.

Lemma to_size_t_id (z : Z) : 0 <= z <= SIZE_MAX -> to_size_t z = z.
Proof.
  unfold to_size_t, SIZE_MAX. intros H. apply Z.mod_small. lia.
Qed.

(** ** The claims *)

(** C1. Once the file compiles, every structural accessor reports the
    layout fact it is named after: the three [getSizeof<Struct>]
    functions the size of the structure, the [getOffsetOf] functions the
    offset of the member, and the member-measuring [getSizeof] functions
    the size of the member, each as the declarative layout defines it and
    whatever the stack holds. *)
Theorem accessors_report_layout_facts (h : headers) (stk : stack) :
  compiles h = true ->
  reports (getSizeofMachTaskBasicInfo h) (struct_size (mach_task_basic_info h))
  /\ reports (getOffsetOfMachTaskBasicInfo_virtual_size h)
       (field_offset (mach_task_basic_info h) "virtual_size")
  /\ reports (getSizeofMachTaskBasicInfo_virtual_size h stk)
       (field_size (mach_task_basic_info h) "virtual_size")
  /\ reports (getOffsetOfMachTaskBasicInfo_resident_size h)
       (field_offset (mach_task_basic_info h) "resident_size")
  /\ reports (getSizeofMachTaskBasicInfo_resident_size h stk)
       (field_size (mach_task_basic_info h) "resident_size")
  /\ reports (getSizeofVmRegionBasicInfo64 h) (struct_size (vm_region_basic_info_64 h))
  /\ reports (getOffsetOfVmRegionBasicInfo64_reserved h)
       (field_offset (vm_region_basic_info_64 h) "reserved")
  /\ reports (getSizeofVmRegionBasicInfo64_reserved h stk)
       (field_size (vm_region_basic_info_64 h) "reserved").
Proof.
  intros Hc. apply compiles_inv in Hc. destruct Hc as (Ct & Hv & Hr & Cr & Hres).
  destruct (probe_member _ _ Ct Hv) as (ov & tv & Mv & Fv & Sv & Ov & Zv).
  destruct (probe_member _ _ Ct Hr) as (or' & tr & Mr & Fr & _ & Or & Zr).
  destruct (probe_member _ _ Cr Hres) as (oe & te & Me & Fe & Se & Oe & Ze).
  assert (Hsize : forall d, sizeof_type (struct_type d) = Some (sizeof (struct_type d)) ->
                    reports (sizeof_type (struct_type d)) (struct_size d)).
  { intros d E. exists (sizeof (struct_type d)). split; [exact E|].
    intros n. apply struct_size_sizeof. }
  assert (Hoff : forall d f o s,
             slots_find f (slots (sd_pack d) (sd_members d)) 0 = Some (o, s) ->
             forall r, r = Some o -> reports r (field_offset d f)).
  { intros d f o s F r ->. exists o. split; [reflexivity|].
    intros n. rewrite field_offset_slots_find, F. cbn. split; congruence. }
  assert (Hfsz : forall d f t,
             member_type f (sd_members d) = Some t ->
             forall r, r = Some (sizeof t) -> reports r (field_size d f)).
  { intros d f t M r ->. exists (sizeof t). split; [reflexivity|].
    intros n. rewrite field_size_member_type, M. cbn. split; congruence. }
  repeat split.
  - apply Hsize, Sv.
  - eapply Hoff; [exact Fv | exact Ov].
  - eapply Hfsz; [exact Mv | apply Zv].
  - eapply Hoff; [exact Fr | exact Or].
  - eapply Hfsz; [exact Mr | apply Zr].
  - apply Hsize, Se.
  - eapply Hoff; [exact Fe | exact Oe].
  - eapply Hfsz; [exact Me | apply Ze].
Qed.

Lemma accessors_report_layout_facts_witness :
  compiles (xnu_headers default_regions) = true
  /\ reports (getSizeofMachTaskBasicInfo (xnu_headers default_regions))
       (struct_size (mach_task_basic_info (xnu_headers default_regions)))
  /\ reports (getOffsetOfVmRegionBasicInfo64_reserved (xnu_headers default_regions))
       (field_offset (vm_region_basic_info_64 (xnu_headers default_regions)) "reserved").
Proof.
  split; [reflexivity|].
  pose proof (accessors_report_layout_facts (xnu_headers default_regions) [] eq_refl) as H.
  split; [apply H | apply H].
Defined.

(** A member of a usable structure lies inside it. *)
Lemma member_inside (d : struct_decl) (f : string) (o s : Z) :
  slots_find f (slots (sd_pack d) (sd_members d)) 0 = Some (o, s) ->
  0 <= o /\ 0 <= s /\ o + s <= sizeof (struct_type d).
Proof.
  intros Hf.
  apply (slots_find_bounds f _ (slots_wf (sd_pack d) (sd_members d))) in Hf.
  pose proof (sizeof_struct_covers (sd_pack d) (sd_members d)).
  unfold struct_type. lia.
Qed.

(** C2. Once the file compiles, each probed member fits within its
    structure: the reported offset plus the reported member size does not
    exceed the reported structure size, for [virtual_size] and
    [resident_size] of [mach_task_basic_info] and for [reserved] of
    [vm_region_basic_info_64]. *)
Theorem probed_fields_fit (h : headers) :
  compiles h = true ->
  exists n vs_off vs_size rs_off rs_size m re_off re_size,
    getSizeofMachTaskBasicInfo h = Some n
    /\ getOffsetOfMachTaskBasicInfo_virtual_size h = Some vs_off
    /\ (forall stk, getSizeofMachTaskBasicInfo_virtual_size h stk = Some vs_size)
    /\ getOffsetOfMachTaskBasicInfo_resident_size h = Some rs_off
    /\ (forall stk, getSizeofMachTaskBasicInfo_resident_size h stk = Some rs_size)
    /\ getSizeofVmRegionBasicInfo64 h = Some m
    /\ getOffsetOfVmRegionBasicInfo64_reserved h = Some re_off
    /\ (forall stk, getSizeofVmRegionBasicInfo64_reserved h stk = Some re_size)
    /\ vs_off + vs_size <= n
    /\ rs_off + rs_size <= n
    /\ re_off + re_size <= m.
Proof.
  intros Hc. apply compiles_inv in Hc. destruct Hc as (Ct & Hv & Hr & Cr & Hres).
  destruct (probe_member _ _ Ct Hv) as (vs_off & tv & _ & Fv & Sv & Ov & Zv).
  destruct (probe_member _ _ Ct Hr) as (rs_off' & tr & _ & Fr & _ & Or & Zr).
  destruct (probe_member _ _ Cr Hres) as (re_off & te & _ & Fe & Se & Oe & Ze).
  apply member_inside in Fv, Fr, Fe.
  exists (sizeof (struct_type (mach_task_basic_info h))), vs_off, (sizeof tv), rs_off', (sizeof tr),
    (sizeof (struct_type (vm_region_basic_info_64 h))), re_off, (sizeof te).
  repeat (split; [assumption|]). lia.
Qed.

Lemma probed_fields_fit_witness :
  exists n vs_off vs_size rs_off rs_size m re_off re_size,
    getSizeofMachTaskBasicInfo (xnu_headers arm_regions) = Some n
    /\ getOffsetOfMachTaskBasicInfo_virtual_size (xnu_headers arm_regions) = Some vs_off
    /\ (forall stk, getSizeofMachTaskBasicInfo_virtual_size (xnu_headers arm_regions) stk = Some vs_size)
    /\ getOffsetOfMachTaskBasicInfo_resident_size (xnu_headers arm_regions) = Some rs_off
    /\ (forall stk, getSizeofMachTaskBasicInfo_resident_size (xnu_headers arm_regions) stk = Some rs_size)
    /\ getSizeofVmRegionBasicInfo64 (xnu_headers arm_regions) = Some m
    /\ getOffsetOfVmRegionBasicInfo64_reserved (xnu_headers arm_regions) = Some re_off
    /\ (forall stk, getSizeofVmRegionBasicInfo64_reserved (xnu_headers arm_regions) stk = Some re_size)
    /\ vs_off + vs_size <= n
    /\ rs_off + rs_size <= n
    /\ re_off + re_size <= m.
Proof. apply (probed_fields_fit (xnu_headers arm_regions)). reflexivity. Defined.

(** C3. Once the file compiles, the byte range reported for
    [virtual_size] and the byte range reported for [resident_size] do not
    overlap: one ends where or before the other starts, so no byte offset
    lies in both half-open ranges. *)
Theorem statistics_fields_disjoint (h : headers) :
  compiles h = true ->
  exists vs_off vs_size rs_off rs_size,
    getOffsetOfMachTaskBasicInfo_virtual_size h = Some vs_off
    /\ (forall stk, getSizeofMachTaskBasicInfo_virtual_size h stk = Some vs_size)
    /\ getOffsetOfMachTaskBasicInfo_resident_size h = Some rs_off
    /\ (forall stk, getSizeofMachTaskBasicInfo_resident_size h stk = Some rs_size)
    /\ (vs_off + vs_size <= rs_off \/ rs_off + rs_size <= vs_off)
    /\ forall b, ~ (vs_off <= b < vs_off + vs_size /\ rs_off <= b < rs_off + rs_size).
Proof.
  intros Hc. apply compiles_inv in Hc. destruct Hc as (Ct & Hv & Hr & _ & _).
  destruct (probe_member _ _ Ct Hv) as (vs_off & tv & _ & Fv & _ & Ov & Zv).
  destruct (probe_member _ _ Ct Hr) as (rs_off' & tr & _ & Fr & _ & Or & Zr).
  exists vs_off, (sizeof tv), rs_off', (sizeof tr).
  repeat (split; [assumption|]).
  assert (Hap : vs_off + sizeof tv <= rs_off' \/ rs_off' + sizeof tr <= vs_off).
  { eapply (slots_find_apart "virtual_size" "resident_size");
      [apply slots_wf | discriminate | exact Fv | exact Fr]. }
  split; [exact Hap | intros b; lia].
Qed.

Lemma statistics_fields_disjoint_witness :
  exists vs_off vs_size rs_off rs_size,
    getOffsetOfMachTaskBasicInfo_virtual_size (xnu_headers default_regions) = Some vs_off
    /\ (forall stk, getSizeofMachTaskBasicInfo_virtual_size (xnu_headers default_regions) stk = Some vs_size)
    /\ getOffsetOfMachTaskBasicInfo_resident_size (xnu_headers default_regions) = Some rs_off
    /\ (forall stk, getSizeofMachTaskBasicInfo_resident_size (xnu_headers default_regions) stk = Some rs_size)
    /\ (vs_off + vs_size <= rs_off \/ rs_off + rs_size <= vs_off)
    /\ forall b, ~ (vs_off <= b < vs_off + vs_size /\ rs_off <= b < rs_off + rs_size).
Proof. apply (statistics_fields_disjoint (xnu_headers default_regions)). reflexivity. Defined.

(** C8. Once the file compiles, the reported size of
    [mach_task_basic_info] is at least the sum of the reported sizes of
    [virtual_size] and [resident_size]; when each of the two is at least 8
    bytes, it is at least 16. *)
Theorem task_info_size_covers_statistics (h : headers) :
  compiles h = true ->
  exists n vs_size rs_size,
    getSizeofMachTaskBasicInfo h = Some n
    /\ (forall stk, getSizeofMachTaskBasicInfo_virtual_size h stk = Some vs_size)
    /\ (forall stk, getSizeofMachTaskBasicInfo_resident_size h stk = Some rs_size)
    /\ vs_size + rs_size <= n
    /\ (8 <= vs_size -> 8 <= rs_size -> 16 <= n).
Proof.
  intros Hc. apply compiles_inv in Hc. destruct Hc as (Ct & Hv & Hr & _ & _).
  destruct (probe_member _ _ Ct Hv) as (vs_off & tv & _ & Fv & Sv & _ & Zv).
  destruct (probe_member _ _ Ct Hr) as (rs_off' & tr & _ & Fr & _ & _ & Zr).
  exists (sizeof (struct_type (mach_task_basic_info h))), (sizeof tv), (sizeof tr).
  repeat (split; [assumption|]).
  assert (Hap : vs_off + sizeof tv <= rs_off' \/ rs_off' + sizeof tr <= vs_off).
  { eapply (slots_find_apart "virtual_size" "resident_size");
      [apply slots_wf | discriminate | exact Fv | exact Fr]. }
  apply member_inside in Fv, Fr. lia.
Qed.

Lemma task_info_size_covers_statistics_witness :
  compiles (xnu_headers default_regions) = true
  /\ exists n,
       getSizeofMachTaskBasicInfo (xnu_headers default_regions) = Some n
       /\ 8 + 8 <= n
       /\ 16 <= n.
Proof.
  split; [reflexivity|].
  destruct (task_info_size_covers_statistics (xnu_headers default_regions) eq_refl)
    as (n & vs_size & rs_size & Hn & Hv & Hr & Hsum & H16).
  specialize (Hv []). specialize (Hr []).
  vm_compute in Hv, Hr. injection Hv as <-. injection Hr as <-.
  exists n. split; [exact Hn|]. split; [exact Hsum|]. apply H16; lia.
Defined.

(** C4. When the headers define [SHARED_TEXT_REGION_SIZE] and
    [SHARED_DATA_REGION_SIZE] as positive constants in the range of
    [size_t], [getSharedTextRegionSize] and [getSharedDataRegionSize]
    return exactly those two values, and both results are strictly
    positive. *)
Theorem region_sizes_are_header_constants (h : headers) :
  0 < SHARED_TEXT_REGION_SIZE h <= SIZE_MAX ->
  0 < SHARED_DATA_REGION_SIZE h <= SIZE_MAX ->
  getSharedTextRegionSize h = Some (SHARED_TEXT_REGION_SIZE h)
  /\ getSharedDataRegionSize h = Some (SHARED_DATA_REGION_SIZE h)
  /\ (forall v, getSharedTextRegionSize h = Some v -> 0 < v)
  /\ (forall v, getSharedDataRegionSize h = Some v -> 0 < v).
Proof.
  intros Ht Hd. unfold getSharedTextRegionSize, getSharedDataRegionSize.
  rewrite !to_size_t_id by lia.
  repeat split; try reflexivity; intros v [= <-]; lia.
Qed.

Lemma region_sizes_are_header_constants_witness :
  (getSharedTextRegionSize (xnu_headers default_regions) = Some 0x10000000
   /\ getSharedDataRegionSize (xnu_headers default_regions) = Some 0x10000000)
  /\ (getSharedTextRegionSize (xnu_headers arm_regions) = Some 0x08000000
      /\ getSharedDataRegionSize (xnu_headers arm_regions) = Some 0x08000000).
Proof.
  split.
  - pose proof (region_sizes_are_header_constants (xnu_headers default_regions)) as H.
    cbn [SHARED_TEXT_REGION_SIZE SHARED_DATA_REGION_SIZE xnu_headers] in H.
    specialize (H ltac:(unfold SIZE_MAX, size_t_bits; lia)
                  ltac:(unfold SIZE_MAX, size_t_bits; lia)).
    split; apply H.
  - pose proof (region_sizes_are_header_constants (xnu_headers arm_regions)) as H.
    cbn [SHARED_TEXT_REGION_SIZE SHARED_DATA_REGION_SIZE xnu_headers] in H.
    specialize (H ltac:(unfold SIZE_MAX, size_t_bits; lia)
                  ltac:(unfold SIZE_MAX, size_t_bits; lia)).
    split; apply H.
Defined.

(** An 8-byte member that follows an 8-byte first member starts at 8
    under every alignment of the data model. *)
Lemma align_up_8 (a : Z) : pow2_upto8 a -> align_up 8 a = 8.
Proof. intros [-> | [-> | [-> | ->]]]; reflexivity. Qed.

Lemma align_up_0 (a : Z) : align_up 0 a = 0 \/ a <= 0.
Proof.
  destruct (Z_lt_le_dec 0 a) as [Ha|Ha]; [left | right; assumption].
  apply align_up_aligned; [assumption | apply Z.divide_0_r].
Qed.

(** C9. When [mach_task_basic_info] is declared with [virtual_size] as
    its first member and [resident_size] as its second, both of an 8-byte
    type, the file reports offset 0 and size 8 for [virtual_size], size 8
    for [resident_size], and for [resident_size] an offset equal to the
    size of [virtual_size]: the two members are adjacent at the start of
    the structure. *)
Theorem statistics_fields_lead_the_structure (h : headers)
    (tv tr : ctype) (rest : list (string * ctype)) (stk : stack) :
  compiles h = true ->
  sd_members (mach_task_basic_info h)
    = ("virtual_size", tv) :: ("resident_size", tr) :: rest ->
  sizeof tv = 8 ->
  sizeof tr = 8 ->
  getOffsetOfMachTaskBasicInfo_virtual_size h = Some 0
  /\ getSizeofMachTaskBasicInfo_virtual_size h stk = Some 8
  /\ getSizeofMachTaskBasicInfo_resident_size h stk = Some 8
  /\ getOffsetOfMachTaskBasicInfo_resident_size h = Some 8
  /\ getOffsetOfMachTaskBasicInfo_resident_size h
     = getSizeofMachTaskBasicInfo_virtual_size h stk.
Proof.
  intros Hc Hms Hv Hr. apply compiles_inv in Hc. destruct Hc as (Ct & _).
  unfold getOffsetOfMachTaskBasicInfo_virtual_size,
    getSizeofMachTaskBasicInfo_virtual_size,
    getOffsetOfMachTaskBasicInfo_resident_size,
    getSizeofMachTaskBasicInfo_resident_size.
  rewrite !sizeof_local_member, !offsetof_struct, Ct, Hms.
  cbn. unfold slot_align, slot_size; cbn.
  destruct (align_up_0 (cap (sd_pack (mach_task_basic_info h)) (alignof tv))) as [-> | Hneg].
  - rewrite Hv, Hr. cbn.
    rewrite (align_up_8 _ (cap_pow2 _ _ (alignof_pow2 tr))).
    repeat split; reflexivity.
  - pose proof (cap_alignof_pos (sd_pack (mach_task_basic_info h)) tv). lia.
Qed.

Lemma statistics_fields_lead_the_structure_witness :
  getOffsetOfMachTaskBasicInfo_virtual_size (xnu_headers arm_regions) = Some 0
  /\ getSizeofMachTaskBasicInfo_virtual_size (xnu_headers arm_regions) [] = Some 8
  /\ getSizeofMachTaskBasicInfo_resident_size (xnu_headers arm_regions) [] = Some 8
  /\ getOffsetOfMachTaskBasicInfo_resident_size (xnu_headers arm_regions) = Some 8
  /\ getOffsetOfMachTaskBasicInfo_resident_size (xnu_headers arm_regions)
     = getSizeofMachTaskBasicInfo_virtual_size (xnu_headers arm_regions) [].
Proof.
  apply (statistics_fields_lead_the_structure (xnu_headers arm_regions)
           mach_vm_size_t mach_vm_size_t
           [("resident_size_max", mach_vm_size_t);
            ("user_time", time_value_t);
            ("system_time", time_value_t);
            ("policy", policy_t);
            ("suspend_count", integer_t)]
           []); reflexivity.
Defined.

(** What the code contributes to the comparison of the two region sizes:
    the results agree exactly when the two macros agree as [size_t]
    values. *)
Lemma region_accessors_agree_iff (h : headers) :
  getSharedTextRegionSize h = getSharedDataRegionSize h
  <-> to_size_t (SHARED_TEXT_REGION_SIZE h) = to_size_t (SHARED_DATA_REGION_SIZE h).
Proof.
  unfold getSharedTextRegionSize, getSharedDataRegionSize. split; congruence.
Qed.

(** ** Calls in a process *)

Lemma call_ignores_stack (h : headers) (a : accessor) (s1 s2 : stack) :
  call h a s1 = call h a s2.
Proof.
  destruct a; cbn [call]; try reflexivity;
    unfold getSizeofMachTaskBasicInfo_virtual_size,
      getSizeofMachTaskBasicInfo_resident_size,
      getSizeofVmRegionBasicInfo64_reserved;
    rewrite !sizeof_local_member; reflexivity.
Qed.

Lemma exec_results (h : headers) (es : list event) :
  forall stk a r, In (a, r) (exec h es stk) -> exists stk', r = call h a stk'.
Proof.
  induction es as [|[b|f] es IH]; intros stk a r; cbn.
  - intros [].
  - intros [[= <- <-]|Hin]; [now exists stk | now apply (IH stk)].
  - apply IH.
Qed.

(** C5. The result of an accessor does not depend on the state in which
    it is called, and so any two calls of one accessor give the same
    result, wherever they occur in whatever runs of the process, in any
    order and with any other calls or other code between them. *)
Theorem accessors_deterministic (h : headers) :
  (forall a s1 s2, call h a s1 = call h a s2)
  /\ (forall es1 es2 s1 s2 a r1 r2,
        In (a, r1) (exec h es1 s1) -> In (a, r2) (exec h es2 s2) -> r1 = r2).
Proof.
  split; [apply call_ignores_stack|].
  intros es1 es2 s1 s2 a r1 r2 H1 H2.
  apply exec_results in H1, H2. destruct H1 as [t1 ->], H2 as [t2 ->].
  apply call_ignores_stack.
Qed.

Lemma accessors_deterministic_witness :
  In (SizeofMachTaskBasicInfo_virtual_size, Some 8)
    (exec (xnu_headers default_regions)
       [Call SizeofMachTaskBasicInfo_virtual_size;
        Other (fun _ => [255; 255; 255]);
        Call SharedTextRegionSize;
        Call SizeofMachTaskBasicInfo_virtual_size] [])
  /\ forall r,
       In (SizeofMachTaskBasicInfo_virtual_size, r)
         (exec (xnu_headers default_regions)
            [Call SharedDataRegionSize;
             Other (fun s => 1 :: s);
             Call SizeofMachTaskBasicInfo_virtual_size] [7; 7]) ->
       Some 8 = r.
Proof.
  assert (H1 : In (SizeofMachTaskBasicInfo_virtual_size, Some 8)
                 (exec (xnu_headers default_regions)
                    [Call SizeofMachTaskBasicInfo_virtual_size;
                     Other (fun _ => [255; 255; 255]);
                     Call SharedTextRegionSize;
                     Call SizeofMachTaskBasicInfo_virtual_size] [])).
  { left. reflexivity. }
  split; [exact H1|].
  intros r H2.
  exact (proj2 (accessors_deterministic (xnu_headers default_regions)) _ _ _ _ _ _ _ H1 H2).
Defined.

Lemma has_member_of_offsetof (d : struct_decl) (f : string) (o : Z) :
  offsetof (struct_type d) f = Some o ->
  usable (struct_type d) = true /\ has_member d f = true.
Proof.
  rewrite offsetof_struct. destruct (usable (struct_type d)); [|discriminate].
  intros H. split; [reflexivity|]. unfold has_member.
  pose proof (slots_find_member_type (sd_pack d) f (sd_members d) 0) as E.
  destruct (slots_find f (slots (sd_pack d) (sd_members d)) 0); [|discriminate].
  destruct (member_type f (sd_members d)); [reflexivity | discriminate].
Qed.

(** C6. Every accessor takes no argument and returns one [size_t] value;
    the only way for a call to have no result is that the translation
    unit was rejected.  Once the file compiles, every call of every
    accessor returns a value, in every state. *)
Theorem accessors_total (h : headers) :
  compiles h = true <-> forall a stk, exists v, call h a stk = Some v.
Proof.
  split.
  - intros Hc a stk. apply compiles_inv in Hc.
    destruct Hc as (Ct & Hv & Hr & Cr & Hres).
    destruct (probe_member _ _ Ct Hv) as (vs_off & tv & _ & _ & Sv & Ov & Zv).
    destruct (probe_member _ _ Ct Hr) as (rs_off & tr & _ & _ & _ & Or & Zr).
    destruct (probe_member _ _ Cr Hres) as (re_off & te & _ & _ & Se & Oe & Ze).
    destruct a; cbn [call]; eexists;
      first [ reflexivity | exact Sv | exact Ov | apply Zv | exact Or | apply Zr
            | exact Se | exact Oe | apply Ze ].
  - intros H.
    destruct (H OffsetOfMachTaskBasicInfo_virtual_size []) as [v1 H1].
    destruct (H OffsetOfMachTaskBasicInfo_resident_size []) as [v2 H2].
    destruct (H OffsetOfVmRegionBasicInfo64_reserved []) as [v3 H3].
    cbn [call] in H1, H2, H3.
    apply has_member_of_offsetof in H1, H2, H3.
    unfold compiles. destruct H1 as [-> ->], H2 as [_ ->], H3 as [-> ->]. reflexivity.
Qed.

Lemma accessors_total_witness :
  compiles (xnu_headers arm_regions) = true
  /\ forall a stk, exists v, call (xnu_headers arm_regions) a stk = Some v.
Proof.
  split; [reflexivity|].
  apply (proj1 (accessors_total (xnu_headers arm_regions))). reflexivity.
Defined.

(** C7. Whatever an accessor returns is non-negative and below [2^64]. *)
Theorem accessor_values_fit_64_bits (h : headers) (a : accessor) (stk : stack) (v : Z) :
  call h a stk = Some v -> 0 <= v < 2 ^ 64.
Proof.
  assert (Hmax : forall z, 0 <= z <= SIZE_MAX -> 0 <= z < 2 ^ 64).
  { unfold SIZE_MAX, size_t_bits. intros z Hz. lia. }
  assert (Hsz : forall t, sizeof_type t = Some v -> 0 <= v < 2 ^ 64).
  { intros t. unfold sizeof_type. destruct (usable t) eqn:Hc; [|discriminate].
    intros [= <-]. apply Hmax, usable_bound, Hc. }
  assert (Hoff : forall d f, offsetof (struct_type d) f = Some v -> 0 <= v < 2 ^ 64).
  { intros d f. rewrite offsetof_struct.
    destruct (usable (struct_type d)) eqn:Hc; [|discriminate].
    destruct (slots_find f (slots (sd_pack d) (sd_members d)) 0) as [[o s]|] eqn:Hf;
      [|discriminate].
    intros [= <-]. apply member_inside in Hf. apply usable_bound in Hc.
    apply Hmax. lia. }
  assert (Hmem : forall d f,
             (if usable (struct_type d)
              then option_map sizeof (member_type f (sd_members d))
              else None) = Some v -> 0 <= v < 2 ^ 64).
  { intros d f. destruct (usable (struct_type d)) eqn:Hc; [|discriminate].
    destruct (member_type f (sd_members d)) as [t|] eqn:Hm; [|discriminate].
    intros [= <-]. apply (member_type_fits (sd_pack d)) in Hm.
    apply usable_bound in Hc. pose proof (sizeof_nonneg t).
    apply Hmax. unfold struct_type in Hc. lia. }
  destruct a; cbn [call];
    unfold getGlobalSharedTextSegment, getSharedTextRegionSize, getSharedDataRegionSize,
      getSizeofMachTaskBasicInfo, getOffsetOfMachTaskBasicInfo_virtual_size,
      getSizeofMachTaskBasicInfo_virtual_size, getOffsetOfMachTaskBasicInfo_resident_size,
      getSizeofMachTaskBasicInfo_resident_size, getSizeofVmRegionBasicInfo64,
      getOffsetOfVmRegionBasicInfo64_reserved, getSizeofVmRegionBasicInfo64_reserved;
    rewrite ?sizeof_local_member;
    first [ intros [= <-]; apply Hmax, to_size_t_range
          | apply Hsz | apply Hoff | apply Hmem ].
Qed.

Lemma accessor_values_fit_64_bits_witness :
  call (xnu_headers default_regions) GlobalSharedTextSegment [] = Some 0x90000000
  /\ 0 <= 0x90000000 < 2 ^ 64.
Proof.
  split; [reflexivity|].
  apply (accessor_values_fit_64_bits (xnu_headers default_regions) GlobalSharedTextSegment []).
  reflexivity.
Defined.

(** ** Further properties of the probe *)

Local Open Scope list_scope.

Lemma pow2_upto8_divide (a b : Z) :
  pow2_upto8 a -> pow2_upto8 b -> a <= b -> (a | b).
Proof.
  intros [-> | [-> | [-> | ->]]] [-> | [-> | [-> | ->]]] Hle; try lia;
    first [ now exists 1 | now exists 2 | now exists 4 | now exists 8 ].
Qed.

Lemma align_up_mono (off off' a a' : Z) :
  0 < a -> 0 < a' -> (a | a') -> off <= off' ->
  align_up off a <= align_up off' a'.
Proof.
  intros Ha Ha' Hdiv Hle.
  destruct (align_up_first_fit off a Ha) as (_ & _ & Hmin). apply Hmin.
  - eapply Z.divide_trans; [exact Hdiv | apply align_up_divide].
  - pose proof (align_up_ge off' a' Ha'). lia.
Qed.

Lemma slots_app (pk : option packing) (ms ex : list (string * ctype)) :
  slots pk (ms ++ ex) = slots pk ms ++ slots pk ex.
Proof. apply map_app. Qed.

Lemma slots_end_app (ss ex : list slot) :
  forall off, slots_end (ss ++ ex) off = slots_end ex (slots_end ss off).
Proof. induction ss as [|s r IH]; intros off; cbn; [reflexivity | apply IH]. Qed.

Lemma slots_align_app (ss ex : list slot) :
  slots_align (ss ++ ex) = Z.max (slots_align ss) (slots_align ex).
Proof.
  induction ss as [|s r IH]; cbn.
  - pose proof (slots_align_pos ex). lia.
  - rewrite IH. lia.
Qed.

Lemma slots_find_app (f : string) (ss ex : list slot) :
  forall off p,
    slots_find f ss off = Some p -> slots_find f (ss ++ ex) off = Some p.
Proof.
  induction ss as [|s r IH]; intros off p; cbn.
  - discriminate.
  - destruct (String.eqb f (slot_name s)); [trivial | apply IH].
Qed.

Lemma slots_find_app_none (f : string) (ss ex : list slot) :
  forall off,
    slots_find f ss off = None ->
    slots_find f (ss ++ ex) off = slots_find f ex (slots_end ss off).
Proof.
  induction ss as [|s r IH]; intros off; cbn.
  - reflexivity.
  - destruct (String.eqb f (slot_name s)); [discriminate | apply IH].
Qed.

Lemma member_type_app (f : string) (ms ex : list (string * ctype)) (t : ctype) :
  member_type f ms = Some t -> member_type f (ms ++ ex) = Some t.
Proof.
  induction ms as [|m r IH]; cbn.
  - discriminate.
  - destruct (String.eqb f (fst m)); [trivial | apply IH].
Qed.

Lemma member_type_none_slots_find (pk : option packing) (f : string)
    (ms : list (string * ctype)) (off : Z) :
  member_type f ms = None -> slots_find f (slots pk ms) off = None.
Proof.
  intros Hm. pose proof (slots_find_member_type pk f ms off) as E.
  rewrite Hm in E. destruct (slots_find f (slots pk ms) off); [discriminate | reflexivity].
Qed.

Lemma slots_align_pow2_all (pk : option packing) (ms : list (string * ctype)) :
  pow2_upto8 (slots_align (slots pk ms)).
Proof.
  apply slots_align_pow2. apply Forall_forall. intros m _. apply alignof_pow2.
Qed.

(** Members added at the end of a structure leave the members before
    them where they were and do not shrink the structure. *)
Lemma appended_members_keep_layout (d d' : struct_decl) (f : string)
    (extra : list (string * ctype)) :
  usable (struct_type d) = true ->
  usable (struct_type d') = true ->
  has_member d f = true ->
  sd_pack d' = sd_pack d ->
  sd_members d' = sd_members d ++ extra ->
  offsetof (struct_type d') f = offsetof (struct_type d) f
  /\ (forall stk,
        (info <- local_object (struct_type d') stk ;;
         fld <- member info f ;;
         sizeof_expr fld)
        = (info <- local_object (struct_type d) stk ;;
           fld <- member info f ;;
           sizeof_expr fld))
  /\ sizeof (struct_type d) <= sizeof (struct_type d').
Proof.
  intros Hc Hc' Hm Hpk Hms.
  destruct (probe_member d f Hc Hm) as (o & t & Mt & Ft & _ & Ot & Zt).
  split; [|split].
  - rewrite Ot, offsetof_struct, Hc', Hpk, Hms, slots_app.
    now rewrite (slots_find_app _ _ _ _ _ Ft).
  - intros stk. rewrite Zt, sizeof_local_member, Hc', Hms.
    now rewrite (member_type_app _ _ _ _ Mt).
  - unfold struct_type. rewrite Hpk, Hms, !sizeof_struct_eq, slots_app.
    rewrite slots_end_app, slots_align_app.
    pose proof (slots_align_pow2_all (sd_pack d) (sd_members d)) as P1.
    pose proof (slots_align_pow2_all (sd_pack d) extra) as P2.
    apply align_up_mono.
    + apply slots_align_pos.
    + pose proof (slots_align_pos (slots (sd_pack d) (sd_members d))). lia.
    + apply pow2_upto8_divide; [assumption | unfold pow2_upto8 in *; lia | lia].
    + apply slots_end_ge, slots_wf.
Qed.

(** X2. When a later version of the headers adds members at the end of
    the two structures, and the file compiles against both versions, the
    reported offsets and member sizes stay the same and the reported
    structure sizes do not get smaller. *)
Theorem appended_members_keep_probed_facts (h h' : headers)
    (extra_task extra_region : list (string * ctype)) :
  compiles h = true ->
  compiles h' = true ->
  sd_pack (mach_task_basic_info h') = sd_pack (mach_task_basic_info h) ->
  sd_members (mach_task_basic_info h')
    = sd_members (mach_task_basic_info h) ++ extra_task ->
  sd_pack (vm_region_basic_info_64 h') = sd_pack (vm_region_basic_info_64 h) ->
  sd_members (vm_region_basic_info_64 h')
    = sd_members (vm_region_basic_info_64 h) ++ extra_region ->
  getOffsetOfMachTaskBasicInfo_virtual_size h'
    = getOffsetOfMachTaskBasicInfo_virtual_size h
  /\ getOffsetOfMachTaskBasicInfo_resident_size h'
     = getOffsetOfMachTaskBasicInfo_resident_size h
  /\ getOffsetOfVmRegionBasicInfo64_reserved h'
     = getOffsetOfVmRegionBasicInfo64_reserved h
  /\ (forall stk, getSizeofMachTaskBasicInfo_virtual_size h' stk
                  = getSizeofMachTaskBasicInfo_virtual_size h stk)
  /\ (forall stk, getSizeofMachTaskBasicInfo_resident_size h' stk
                  = getSizeofMachTaskBasicInfo_resident_size h stk)
  /\ (forall stk, getSizeofVmRegionBasicInfo64_reserved h' stk
                  = getSizeofVmRegionBasicInfo64_reserved h stk)
  /\ exists n n' m m',
       getSizeofMachTaskBasicInfo h = Some n
       /\ getSizeofMachTaskBasicInfo h' = Some n'
       /\ getSizeofVmRegionBasicInfo64 h = Some m
       /\ getSizeofVmRegionBasicInfo64 h' = Some m'
       /\ n <= n' /\ m <= m'.
Proof.
  intros Hc Hc' Pt Mt Pr Mr.
  apply compiles_inv in Hc, Hc'.
  destruct Hc as (Ct & Hv & Hr & Cr & Hres), Hc' as (Ct' & _ & _ & Cr' & _).
  destruct (appended_members_keep_layout _ _ "virtual_size" _ Ct Ct' Hv Pt Mt)
    as (Ov & Zv & Ln).
  destruct (appended_members_keep_layout _ _ "resident_size" _ Ct Ct' Hr Pt Mt)
    as (Or & Zr & _).
  destruct (appended_members_keep_layout _ _ "reserved" _ Cr Cr' Hres Pr Mr)
    as (Oe & Ze & Lm).
  repeat (split; [assumption|]).
  exists (sizeof (struct_type (mach_task_basic_info h))),
    (sizeof (struct_type (mach_task_basic_info h'))),
    (sizeof (struct_type (vm_region_basic_info_64 h))),
    (sizeof (struct_type (vm_region_basic_info_64 h'))).
  unfold getSizeofMachTaskBasicInfo, getSizeofVmRegionBasicInfo64, sizeof_type.
  rewrite Ct, Ct', Cr, Cr'. repeat split; assumption.
Qed.

Lemma appended_members_keep_probed_facts_witness :
  getOffsetOfMachTaskBasicInfo_resident_size
    {| GLOBAL_SHARED_TEXT_SEGMENT := 0x90000000;
       SHARED_TEXT_REGION_SIZE := 0x10000000;
       SHARED_DATA_REGION_SIZE := 0x10000000;
       mach_task_basic_info :=
         {| sd_pack := Some Pack4;
            sd_members := sd_members xnu_mach_task_basic_info
                            ++ [("ledger_count", Tchar); ("ledger_bytes", Tlonglong)] |};
       vm_region_basic_info_64 :=
         {| sd_pack := Some Pack4;
            sd_members := sd_members xnu_vm_region_basic_info_64
                            ++ [("object_id", Tint)] |} |}
  = getOffsetOfMachTaskBasicInfo_resident_size (xnu_headers default_regions).
Proof.
  apply (appended_members_keep_probed_facts (xnu_headers default_regions) _
           [("ledger_count", Tchar); ("ledger_bytes", Tlonglong)]
           [("object_id", Tint)]); reflexivity.
Defined.

(** A member declared before another lies before it. *)
Lemma declared_first_lies_first (pk : option packing) (f g : string)
    (pre rest : list (string * ctype)) (tf : ctype) (o_f s_f o_g s_g : Z) :
  f <> g ->
  member_type f pre = None ->
  member_type g pre = None ->
  slots_find f (slots pk (pre ++ (f, tf) :: rest)) 0 = Some (o_f, s_f) ->
  slots_find g (slots pk (pre ++ (f, tf) :: rest)) 0 = Some (o_g, s_g) ->
  o_f + s_f <= o_g.
Proof.
  intros Hne Nf Ng.
  rewrite slots_app.
  rewrite !slots_find_app_none by (now apply member_type_none_slots_find).
  cbn. unfold slot_name, slot_size, slot_align; cbn. fold (slots pk rest).
  rewrite String.eqb_refl.
  assert (Hgf : String.eqb g f = false) by (apply String.eqb_neq; congruence).
  rewrite Hgf. intros [= <- <-] Hg.
  apply (slots_find_bounds g _ (slots_wf pk rest)) in Hg. lia.
Qed.

(** X3. When [virtual_size] is declared before [resident_size] in
    [mach_task_basic_info] (whatever members come before, between and
    after them), the reported range of [virtual_size] ends at or before
    the reported offset of [resident_size]. *)
Theorem virtual_size_declared_first_lies_first (h : headers)
    (pre rest : list (string * ctype)) (tv : ctype) :
  compiles h = true ->
  sd_members (mach_task_basic_info h) = pre ++ ("virtual_size", tv) :: rest ->
  member_type "virtual_size" pre = None ->
  member_type "resident_size" pre = None ->
  exists vs_off vs_size rs_off,
    getOffsetOfMachTaskBasicInfo_virtual_size h = Some vs_off
    /\ (forall stk, getSizeofMachTaskBasicInfo_virtual_size h stk = Some vs_size)
    /\ getOffsetOfMachTaskBasicInfo_resident_size h = Some rs_off
    /\ vs_off + vs_size <= rs_off.
Proof.
  intros Hc Hms Nv Nr. apply compiles_inv in Hc. destruct Hc as (Ct & Hv & Hr & _ & _).
  destruct (probe_member _ _ Ct Hv) as (vs_off & tv' & _ & Fv & _ & Ov & Zv).
  destruct (probe_member _ _ Ct Hr) as (rs_off & tr & _ & Fr & _ & Or & _).
  exists vs_off, (sizeof tv'), rs_off.
  repeat (split; [assumption|]).
  rewrite Hms in Fv, Fr.
  eapply (declared_first_lies_first _ "virtual_size" "resident_size");
    [discriminate | exact Nv | exact Nr | exact Fv | exact Fr].
Qed.

Lemma virtual_size_declared_first_lies_first_witness :
  exists vs_off vs_size rs_off,
    getOffsetOfMachTaskBasicInfo_virtual_size (xnu_headers arm_regions) = Some vs_off
    /\ (forall stk,
          getSizeofMachTaskBasicInfo_virtual_size (xnu_headers arm_regions) stk
          = Some vs_size)
    /\ getOffsetOfMachTaskBasicInfo_resident_size (xnu_headers arm_regions) = Some rs_off
    /\ vs_off + vs_size <= rs_off.
Proof.
  apply (virtual_size_declared_first_lies_first (xnu_headers arm_regions) []
           [("resident_size", mach_vm_size_t);
            ("resident_size_max", mach_vm_size_t);
            ("user_time", time_value_t);
            ("system_time", time_value_t);
            ("policy", policy_t);
            ("suspend_count", integer_t)]
           mach_vm_size_t); reflexivity.
Defined.









Example packing_shrinks_region_info :
  sizeof (Tstruct None (sd_members xnu_vm_region_basic_info_64)) = 40
  /\ sizeof (struct_type xnu_vm_region_basic_info_64) = 36.
Proof. split; reflexivity. Qed.
